(** * Pointer-permutation test suite: generators of permuted linked lists

    A shallow embedding of the test suite for generators of randomly
    permuted pointer chains ([external_shuffle_generator::getlist] and
    [testGenerator]) together with the properties of the generated chain
    and of the cycle/stride analysis.

    Modelling conventions.
    - A slot of the pointer array [list] holds the address of another slot.
      The address [&list[j]] is represented by the slot number [j]; a number
      [>= N] stands for an address that is not a slot of the array.  The
      pointer difference [q - p] of two slot addresses is the difference of
      their slot numbers.
    - C++ [int] values are represented by [nat] or [Z] without an upper
      bound: the sizes [N + 1] and [2 * N], the indices and the counters (at
      most [2 * N]) and the product [40 * hist[i]] (at most [40 * N]) are
      taken to fit an [int], as the program takes them to.
    - [double] and [float] values are represented by exact rationals.
    - An access outside an array, an inverted iterator range and an integer
      division by zero are undefined behaviour: the computation ends in
      [Undefined].
    - Loops whose trip count is not syntactically bounded carry a fuel
      argument; running out of fuel is the distinct outcome [OutOfFuel]. *)

From Stdlib Require Import ZArith QArith Lia.
From stdpp Require Import base tactics option list list_numbers.

Local Open Scope nat_scope.

(** ** Outcomes of a computation *)

Inductive outcome (A : Type) : Type :=
  | Ok (a : A)
  | Undefined
  | OutOfFuel.

Arguments Ok {A} a.
Arguments Undefined {A}.
Arguments OutOfFuel {A}.

#[global] Instance outcome_ret : MRet outcome := @Ok.

#[global] Instance outcome_bind : MBind outcome := λ A B k m,
  match m with
  | Ok a => k a
  | Undefined => Undefined
  | OutOfFuel => OutOfFuel
  end.

(** ** Arrays *)

(** [new T[n]]: [n] cells of indeterminate content, [junk i] being whatever
    cell [i] happens to hold. *)
Definition new_array {A} (n : nat) (junk : nat → A) : list A :=
  junk <$> seq 0 n.

(** [a[i]] as an rvalue, with a natural index. *)
Definition load {A} (a : list A) (i : nat) : outcome A :=
  match a !! i with
  | Some x => Ok x
  | None => Undefined
  end.

(** [a[i] = x], with a natural index. *)
Definition store {A} (a : list A) (i : nat) (x : A) : outcome (list A) :=
  if decide (i < length a) then Ok (<[i := x]> a) else Undefined.

(** The same accesses with a signed index. *)
Definition loadZ {A} (a : list A) (i : Z) : outcome A :=
  if decide (0 ≤ i)%Z then load a (Z.to_nat i) else Undefined.

Definition storeZ {A} (a : list A) (i : Z) (x : A) : outcome (list A) :=
  if decide (0 ≤ i)%Z then store a (Z.to_nat i) x else Undefined.

(** [for (int i = lo; i < lo + n; i++) body] over a state of type [St]. *)
Fixpoint for_loop {St} (lo n : nat) (body : nat → St → outcome St) (st : St)
  : outcome St :=
  match n with
  | 0 => Ok st
  | S n' => st' ← body lo st; for_loop (S lo) n' body st'
  end.

(** ** The cycle and stride analysis of [testGenerator] *)

(** The variables of [testGenerator] that live across the pointer chase.
    [lst] is the pointer array [list], [p] the slot the cursor points to. *)
Record frame : Type := Frame {
  lst : list nat;
  p : nat;
  visited : list bool;
  cyclelength : Z;
  strides : list Z
}.

(** The body of the [do ... while] loop. *)
Definition chase_body (N : nat) (st : frame) : outcome frame :=
  vis ← store (visited st) (p st) true;
  let cl := (cyclelength st + 1)%Z in
  tgt ← load (lst st) (p st);
  let stride := (Z.of_nat tgt - Z.of_nat (p st))%Z in
  cnt ← loadZ (strides st) (Z.of_nat N + stride);
  str ← storeZ (strides st) (Z.of_nat N + stride) (cnt + 1)%Z;
  Ok {| lst := lst st; p := tgt; visited := vis;
        cyclelength := cl; strides := str |}.

(** [do body while (!visited[p - list])]. *)
Fixpoint chase (fuel : nat) (N : nat) (st : frame) : outcome frame :=
  match fuel with
  | 0 => OutOfFuel
  | S fuel' =>
      st' ← chase_body N st;
      seen ← load (visited st') (p st');
      if seen : bool then Ok st' else chase fuel' N st'
  end.

(** What [testGenerator] knows after the chase. *)
Record report : Type := Report {
  r_list : list nat;
  r_cyclelength : Z;
  r_covered : Q;
  r_index : nat;
  r_strides : list Z
}.

(** [float covered = (100.0 * cyclelength) / N], as an exact rational. *)
Definition coverage (cl : Z) (N : nat) : Q :=
  (100 * inject_Z cl / inject_Z (Z.of_nat N))%Q.

(** Lines 124-165 of [testGenerator], from the array [l] returned by the
    generator: [strides] and [visited] are allocated and cleared by their
    initialisation loops, then the chain is chased from slot 0. *)
Definition analyze (fuel : nat) (N : nat) (l : list nat) : outcome report :=
  let strides0 := replicate (2 * N) 0%Z in
  let visited0 := replicate N false in
  st ← chase fuel N {| lst := l; p := 0; visited := visited0;
                        cyclelength := 0; strides := strides0 |};
  Ok {| r_list := lst st;
        r_cyclelength := cyclelength st;
        r_covered := coverage (cyclelength st) N;
        r_index := p st;
        r_strides := strides st |}.

(** ** The histogram printed by [testGenerator] *)

(** The conversion [(int) x] of a floating-point value, the value being
    represented by an exact rational: truncation towards zero. *)
Definition truncate (x : Q) : Z := (Qnum x ÷ Z.pos (Qden x))%Z.

(** [(int) (-N + (2.0*N / 20) * i)]: the boundary between the display
    buckets [i - 1] and [i].  The [double] arithmetic is carried out in
    exact rationals. *)
Definition edge (N : nat) (i : nat) : Z :=
  truncate (- inject_Z (Z.of_nat N)
            + (2 * inject_Z (Z.of_nat N) / 20) * inject_Z (Z.of_nat i))%Q.

(** [for (int j = lo; j < lo + n; j++) acc += strides[j]]. *)
Fixpoint sum_from (strides : list Z) (lo : Z) (n : nat) (acc : Z) : outcome Z :=
  match n with
  | 0 => Ok acc
  | S n' => x ← loadZ strides lo; sum_from strides (lo + 1)%Z n' (acc + x)%Z
  end.

(** Entry [i] of the arrays [a], [b] and [hist]. *)
Record bucket : Type := Bucket { b_lo : Z; b_hi : Z; b_count : Z }.

(** The first loop over the 20 display buckets: bucket [i] is appended to
    the arrays and [maxAmount] is kept up to date. *)
Definition fill_bucket (N : nat) (strides : list Z) (i : nat)
    (st : list bucket * Z) : outcome (list bucket * Z) :=
  let a := edge N i in
  let b := edge N (i + 1) in
  h ← sum_from strides (a + Z.of_nat N) (Z.to_nat (b - a)) 0;
  Ok (st.1 ++ [{| b_lo := a; b_hi := b; b_count := h |}],
      if decide (h > st.2)%Z then h else st.2).

(** A printed line: the range, [stars] times ['*'], [blanks] times [' '],
    and the count. *)
Record bar : Type := Bar {
  bar_lo : Z; bar_hi : Z; bar_stars : nat; bar_blanks : nat; bar_count : Z
}.

(** [a / b] on [int]. *)
Definition divide (a b : Z) : outcome Z :=
  if decide (b = 0%Z) then Undefined else Ok (a ÷ b)%Z.

(** The second loop: the line of bucket [i]. *)
Definition draw_bar (buckets : list bucket) (maxAmount : Z) (i : nat)
    (out : list bar) : outcome (list bar) :=
  bk ← load buckets i;
  dots ← divide (40 * b_count bk) maxAmount;
  Ok (out ++ [{| bar_lo := b_lo bk; bar_hi := b_hi bk;
                 bar_stars := Z.to_nat dots;
                 bar_blanks := Z.to_nat (40 - dots);
                 bar_count := b_count bk |}]).

(** The part of [testGenerator] under [if (printHist)]. *)
Definition render (N : nat) (strides : list Z) : outcome (list bar) :=
  st ← for_loop 0 20 (fill_bucket N strides) ([], 0%Z);
  for_loop 0 20 (draw_bar st.1 st.2) [].

(** [maxAmount] after the first loop. *)
Definition max_amount (N : nat) (strides : list Z) : outcome Z :=
  st ← for_loop 0 20 (fill_bucket N strides) ([], 0%Z); Ok st.2.

(** ** The generators *)

(** [permutated_list_generator]: the element count and the pointer array
    allocated by the constructor. *)
Record generator : Type := Generator { getN : nat; gen_list : list nat }.

Definition permutated_list_generator (N : nat) (junk : nat → nat) : generator :=
  {| getN := N; gen_list := new_array N junk |}.

(** [std::iter_swap(a + i, a + j)]. *)
Definition iter_swap {A} (a : list A) (i j : nat) : outcome (list A) :=
  x ← load a i;
  y ← load a j;
  a' ← store a i y;
  store a' j x.

(** The value a [uniform_int_distribution] over [0 .. bound] returns at
    draw number [k] of the engine [g]: some number of that range. *)
Definition uniform (g : nat → nat) (k bound : nat) : nat := g k `mod` S bound.

(** [std::shuffle(a + first, a + last, g)]: each position of the range,
    from the second on, is swapped with a position drawn among those up to
    it.  The range has to be a range of the array. *)
Definition shuffle {A} (a : list A) (first last : nat) (g : nat → nat)
  : outcome (list A) :=
  if decide (first ≤ last ∧ last ≤ length a) then
    for_loop 1 (last - first - 1)
      (λ k a, iter_swap a (first + k) (first + uniform g k k)) a
  else Undefined.

(** The first part of [external_shuffle_generator::getlist]: the array
    [traversal_order] is allocated, filled with [0, 1, ..., N-1, 0] and
    shuffled.  [junk] is the indeterminate content of the fresh array, [g]
    the random engine.  The end [traversal_order + (N - 1)] of the shuffled
    range lies before its start [traversal_order + 1] when [N < 2]. *)
Definition traversal_order (N : nat) (junk : nat → nat) (g : nat → nat)
  : outcome (list nat) :=
  let t := new_array (N + 1) junk in
  t ← for_loop 0 N (λ i t, store t i i) t;
  t ← store t N 0;
  shuffle t 1 (N - 1) g.

(** [external_shuffle_generator::getlist]: the traversal order is
    implemented within the pointer array, which is returned. *)
Definition getlist (gen : generator) (junk : nat → nat) (g : nat → nat)
  : outcome (list nat) :=
  let N := getN gen in
  t ← traversal_order N junk g;
  for_loop 0 N
    (λ i l, a ← load t i;
            b ← load t (i + 1);
            store l a b)
    (gen_list gen).

(** The indeterminate memory contents and the random engine a run of
    [testGenerator<external_shuffle_generator>] meets. *)
Record world : Type := World {
  junk_list : nat → nat;
  junk_order : nat → nat;
  engine : nat → nat
}.

(** [testGenerator<external_shuffle_generator>(N, printHist)]: the array is
    generated, analysed and, on request, its stride histogram printed.  The
    result holds what is reported and the printed lines. *)
Definition testGenerator (w : world) (fuel : nat) (N : nat) (printHist : bool)
  : outcome (report * list bar) :=
  let gen := permutated_list_generator N (junk_list w) in
  l ← getlist gen (junk_order w) (engine w);
  r ← analyze fuel N l;
  bars ← (if printHist then render N (r_strides r) else Ok []);
  Ok (r, bars).

(** ** The chain as a mathematical object *)

(** The slot a slot points to. *)
Definition next (l : list nat) (x : nat) : nat := default 0 (l !! x).

(** The slot reached from slot 0 after [n] hops. *)
Fixpoint orbit (l : list nat) (n : nat) : nat :=
  match n with
  | 0 => 0
  | S n' => next l (orbit l n')
  end.

(** The first [k] slots on the chain from slot 0. *)
Definition trail (l : list nat) (k : nat) : list nat := orbit l <$> seq 0 k.

Arguments trail : simpl never.

(** The stride of the hop that leaves slot [x]. *)
Definition stride_of (l : list nat) (x : nat) : Z :=
  (Z.of_nat (next l x) - Z.of_nat x)%Z.

(** Every slot of an array of [N] slots points to a slot of the array. *)
Definition valid (N : nat) (l : list nat) : Prop :=
  length l = N ∧ Forall (λ x, x < N) l.

(** A slot is reached from slot 0. *)
Definition reached (l : list nat) (x : nat) : Prop := ∃ n, orbit l n = x.

(** The array is one cycle through all its [N] slots: [order] lists the
    slots in the order of the cycle, from slot 0. *)
Definition hamiltonian (N : nat) (l : list nat) : Prop :=
  length l = N ∧
  ∃ order : list nat,
    order ≡ₚ seq 0 N ∧ order !! 0 = Some 0 ∧
    ∀ i x, order !! i = Some x →
           l !! x = Some (default 0 (order !! (S i `mod` N))).

(** One more stride in the histogram buffer. *)
Definition bump (N : nat) (h : list Z) (d : Z) : list Z :=
  let i := Z.to_nat (Z.of_nat N + d) in <[i := (default 0 (h !! i) + 1)%Z]> h.

(** The histogram buffer after the strides [ds] have been recorded. *)
Definition tally (N : nat) (ds : list Z) : list Z :=
  foldl (bump N) (replicate (2 * N) 0%Z) ds.

Arguments tally : simpl never.

(** The sum of the counts of a histogram. *)
Definition total (h : list Z) : Z := foldr Z.add 0%Z h.

(** A stride fits the buffer when [N + d] is one of its indices. *)
Definition fits (N : nat) (d : Z) : Prop := (- Z.of_nat N ≤ d < Z.of_nat N)%Z.

(** The [visited] buffer in which exactly the first [k] slots of the chain
    are marked. *)
Definition marks (N : nat) (l : list nat) (k : nat) : list bool :=
  (λ i, bool_decide (i ∈ trail l k)) <$> seq 0 N.

Arguments marks : simpl never.

(** The variables of [testGenerator] after [k] hops along the chain. *)
Definition snapshot (N : nat) (l : list nat) (k : nat) : frame :=
  {| lst := l;
     p := orbit l k;
     visited := marks N l k;
     cyclelength := Z.of_nat k;
     strides := tally N (stride_of l <$> trail l k) |}.

(** [k] is the number of hops after which the chain from slot 0 first comes
    back to a slot it has already left. *)
Definition closes_at (l : list nat) (k : nat) : Prop :=
  NoDup (trail l k) ∧ orbit l k ∈ trail l k.

(** The report of [testGenerator] on a chain that closes after [k] hops. *)
Definition report_at (N : nat) (l : list nat) (k : nat) : report :=
  {| r_list := l;
     r_cyclelength := Z.of_nat k;
     r_covered := coverage (Z.of_nat k) N;
     r_index := orbit l k;
     r_strides := tally N (stride_of l <$> trail l k) |}.

(** The line the second loop prints for a bucket. *)
Definition bar_of (maxAmount : Z) (bk : bucket) : bar :=
  let dots := (40 * b_count bk ÷ maxAmount)%Z in
  {| bar_lo := b_lo bk; bar_hi := b_hi bk;
     bar_stars := Z.to_nat dots; bar_blanks := Z.to_nat (40 - dots);
     bar_count := b_count bk |}.

(** ** Sample inputs *)

(** A run in which fresh memory holds arbitrary numbers and the engine
    draws 1, 4, 7, ... *)
Definition sample_world : world :=
  {| junk_list := λ i, 77 + i; junk_order := λ _, 99; engine := λ k, 3 * k + 1 |}.

(** The cycle 0 → 1 → 2 → 0. *)
Definition sample_cycle : list nat := [1; 2; 0].

(** ** The other entry points of the test suite *)

(** [speedrun<external_shuffle_generator>(N)]: the array is generated and
    dropped. *)
Definition speedrun (w : world) (N : nat) : outcome unit :=
  let gen := permutated_list_generator N (junk_list w) in
  l ← getlist gen (junk_order w) (engine w);
  Ok ().

(** [XMem_list_generator::getlist].  The routine
    [xmem::build_random_pointer_permutation] belongs to the X-Mem library;
    [build] stands for it: what it makes of the array it is given. *)
Definition XMem_getlist (build : list nat → outcome (list nat))
    (gen : generator) : outcome (list nat) :=
  build (gen_list gen).

(** [testGenerator<T>(N, printHist)] for a generator class [T] whose
    [getlist] method is [getlist_T]; with [XMem_getlist] this is also the
    [testGenerator] of [main.cpp]. *)
Definition testGenerator_of (getlist_T : generator → outcome (list nat))
    (junk : nat → nat) (fuel : nat) (N : nat) (printHist : bool)
  : outcome (report * list bar) :=
  let gen := permutated_list_generator N junk in
  l ← getlist_T gen;
  r ← analyze fuel N l;
  bars ← (if printHist then render N (r_strides r) else Ok []);
  Ok (r, bars).

(** The averaging loop of [main]: [testGenerator] is run 100 times without
    histogram on [N] elements, run [i] in the world [ws i], and the mean of
    the coverages is taken. *)
Definition average_coverage (ws : nat → world) (fuel : nat) (N : nat)
  : outcome Q :=
  sum ← for_loop 0 100
           (λ i sum, rb ← testGenerator (ws i) fuel N false;
                     Ok (sum + r_covered rb.1)%Q)
           0%Q;
  Ok (sum / 100)%Q.

(** The sum of the strides a histogram buffer holds, each stride [i - N]
    taken as often as its counter [h[i]] says; [weighted] walks the buffer
    from the stride [d] of its first counter. *)
Fixpoint weighted (d : Z) (h : list Z) : Z :=
  match h with
  | [] => 0
  | c :: h' => d * c + weighted (d + 1) h'
  end%Z.

Definition stride_sum (N : nat) (h : list Z) : Z := weighted (- Z.of_nat N) h.

(** A histogram buffer for 3 elements, with one stride -2 and two strides
    1, and the lines printed for it. *)
Definition sample_strides : list Z := [0; 1; 0; 0; 2; 0]%Z.

Definition sample_bars : list bar :=
  bar_of 2 <$>
    ((λ i, {| b_lo := edge 3 i; b_hi := edge 3 (S i);
              b_count := if decide (i = 3) then 1%Z
                         else if decide (i = 16) then 2%Z else 0%Z |})
     <$> seq 0 20).

(** * Properties *)

(** ** Array accesses *)

Lemma load_lookup {A} (a : list A) i x : a !! i = Some x → load a i = Ok x.
Proof. unfold load. by intros ->. Qed.

Lemma store_lt {A} (a : list A) i x :
  i < length a → store a i x = Ok (<[i := x]> a).
Proof. unfold store. intros H. by rewrite decide_True. Qed.

Lemma loadZ_lookup {A} (a : list A) (z : Z) x :
  (0 ≤ z)%Z → a !! Z.to_nat z = Some x → loadZ a z = Ok x.
Proof. unfold loadZ. intros H ?. rewrite decide_True by done. by apply load_lookup. Qed.

Lemma storeZ_lt {A} (a : list A) (z : Z) x :
  (0 ≤ z)%Z → Z.to_nat z < length a →
  storeZ a z x = Ok (<[Z.to_nat z := x]> a).
Proof. unfold storeZ. intros H ?. rewrite decide_True by done. by apply store_lt. Qed.

Lemma bind_Ok {A B} (a : A) (k : A → outcome B) : (Ok a ≫= k) = k a.
Proof. done. Qed.

(** ** Histograms *)

Lemma total_app h1 h2 : total (h1 ++ h2) = (total h1 + total h2)%Z.
Proof. unfold total. induction h1 as [|x h1 IH]; simpl; [done | lia]. Qed.

Lemma total_replicate_0 n : total (replicate n 0%Z) = 0%Z.
Proof. unfold total. induction n as [|n IH]; simpl; [done | lia]. Qed.

Lemma total_insert h i c v :
  h !! i = Some c → total (<[i := v]> h) = (total h - c + v)%Z.
Proof.
  revert i. induction h as [|x h IH]; intros [|i] Hi; simplify_eq/=.
  - unfold total. simpl. lia.
  - specialize (IH _ Hi). unfold total in *. simpl. lia.
Qed.

Lemma length_bump N h d : length (bump N h d) = length h.
Proof. unfold bump. by rewrite length_insert. Qed.

Lemma length_tally N ds : length (tally N ds) = 2 * N.
Proof.
  unfold tally. induction ds as [|d ds IH] using rev_ind.
  - simpl. by rewrite length_replicate.
  - by rewrite foldl_snoc, length_bump.
Qed.

Lemma tally_snoc N ds d : tally N (ds ++ [d]) = bump N (tally N ds) d.
Proof. unfold tally. by rewrite foldl_snoc. Qed.

Lemma total_tally N ds :
  Forall (fits N) ds → total (tally N ds) = Z.of_nat (length ds).
Proof.
  induction ds as [|d ds IH] using rev_ind; intros Hds.
  - unfold tally. simpl. apply total_replicate_0.
  - apply Forall_app in Hds as [Hds Hd%Forall_inv].
    rewrite tally_snoc, length_app. simpl. unfold bump. simpl.
    destruct (lookup_lt_is_Some_2 (tally N ds) (Z.to_nat (Z.of_nat N + d)))
      as [c Hc].
    { rewrite length_tally. unfold fits in Hd. lia. }
    rewrite (total_insert _ _ c) by done. rewrite Hc. simpl.
    rewrite IH by done. lia.
Qed.

Lemma tally_nonneg N ds i c : tally N ds !! i = Some c → (0 ≤ c)%Z.
Proof.
  revert i c. induction ds as [|d ds IH] using rev_ind; intros i c.
  - unfold tally. simpl. intros [-> _]%lookup_replicate. done.
  - rewrite tally_snoc. unfold bump.
    destruct (decide (i = Z.to_nat (Z.of_nat N + d))) as [->|Hne].
    + intros Hi. pose proof (lookup_lt_Some _ _ _ Hi) as Hlt.
      rewrite length_insert in Hlt.
      rewrite list_lookup_insert_eq in Hi by done. simplify_eq.
      destruct (tally N ds !! _) as [c|] eqn:Hc; simpl; [|lia].
      apply IH in Hc. lia.
    + rewrite list_lookup_insert_ne by done. apply IH.
Qed.

Lemma tally_recorded N ds d :
  Forall (fits N) ds → d ∈ ds →
  ∃ c, tally N ds !! Z.to_nat (Z.of_nat N + d) = Some c ∧ (1 ≤ c)%Z.
Proof.
  induction ds as [|e ds IH] using rev_ind; intros Hds Hin.
  - by apply elem_of_nil in Hin.
  - apply Forall_app in Hds as [Hds He%Forall_inv].
    rewrite tally_snoc. unfold bump.
    destruct (decide (Z.to_nat (Z.of_nat N + e) = Z.to_nat (Z.of_nat N + d)))
      as [Heq|Hne].
    + rewrite Heq.
      destruct (lookup_lt_is_Some_2 (tally N ds) (Z.to_nat (Z.of_nat N + d)))
        as [c Hc].
      { rewrite length_tally. rewrite <- Heq. unfold fits in He. lia. }
      rewrite list_lookup_insert_eq by (by eapply lookup_lt_Some).
      rewrite Hc. simpl. eexists; split; [done|].
      apply tally_nonneg in Hc. lia.
    + rewrite list_lookup_insert_ne by done.
      apply elem_of_app in Hin as [Hin | Hin%list_elem_of_singleton].
      * by apply IH.
      * by subst.
Qed.

Lemma tally_support N ds i c :
  tally N ds !! i = Some c → c ≠ 0%Z →
  ∃ d, d ∈ ds ∧ i = Z.to_nat (Z.of_nat N + d).
Proof.
  revert i c. induction ds as [|e ds IH] using rev_ind; intros i c.
  - unfold tally. simpl. intros [-> _]%lookup_replicate. done.
  - rewrite tally_snoc. unfold bump.
    destruct (decide (i = Z.to_nat (Z.of_nat N + e))) as [->|Hne].
    + intros _ _. exists e. split; [|done]. apply elem_of_app. right.
      by apply list_elem_of_singleton.
    + rewrite list_lookup_insert_ne by done. intros Hi Hc.
      destruct (IH _ _ Hi Hc) as (d & Hd & ->). exists d. split; [|done].
      apply elem_of_app. by left.
Qed.

(** ** The chain *)

Lemma trail_S l k : trail l (S k) = trail l k ++ [orbit l k].
Proof. unfold trail. by rewrite seq_S, fmap_app. Qed.

Lemma length_trail l k : length (trail l k) = k.
Proof. unfold trail. by rewrite length_fmap, length_seq. Qed.

Lemma trail_lookup l k j : j < k → trail l k !! j = Some (orbit l j).
Proof.
  intros Hj. unfold trail. rewrite list_lookup_fmap, lookup_seq_lt by done.
  done.
Qed.

Lemma elem_of_trail l k x : x ∈ trail l k ↔ ∃ j, j < k ∧ orbit l j = x.
Proof.
  unfold trail. rewrite list_elem_of_fmap. split.
  - intros (j & -> & Hj%elem_of_seq). exists j. split; [lia | done].
  - intros (j & Hj & <-). exists j. split; [done|]. apply elem_of_seq. lia.
Qed.

Lemma trail_prefix l j k : j ≤ k → trail l j `prefix_of` trail l k.
Proof.
  induction 1 as [|k _ IH]; [done|].
  rewrite trail_S. by apply prefix_app_r.
Qed.

Lemma NoDup_trail_le l j k : j ≤ k → NoDup (trail l k) → NoDup (trail l j).
Proof.
  intros Hjk Hk. destruct (trail_prefix l j k Hjk) as [t Ht].
  rewrite Ht in Hk. by apply NoDup_app in Hk as [? _].
Qed.

Lemma NoDup_trail_fresh l j k :
  j < k → NoDup (trail l k) → orbit l j ∉ trail l j.
Proof.
  intros Hjk Hk. apply (NoDup_trail_le l (S j)) in Hk; [|lia].
  rewrite trail_S in Hk. apply NoDup_app in Hk as (_ & Hk & _).
  intros Hin. apply (Hk _ Hin). by apply list_elem_of_singleton.
Qed.

(** A list of distinct slots of an array of [N] slots has at most [N]
    elements. *)
Lemma NoDup_bounded_length (xs : list nat) N :
  NoDup xs → (∀ x, x ∈ xs → x < N) → length xs ≤ N.
Proof.
  intros Hnd Hlt.
  assert (length xs ≤ length (seq 0 N)) as Hle; [|by rewrite length_seq in Hle].
  apply submseteq_length, NoDup_submseteq; [done|].
  intros x Hx. apply elem_of_seq. specialize (Hlt x Hx). lia.
Qed.

Section chain.
Variables (N : nat) (l : list nat).
Hypothesis Hvalid : valid N l.
Hypothesis HN : 0 < N.

Lemma next_lookup x : x < N → l !! x = Some (next l x).
Proof.
  intros Hx. destruct Hvalid as [Hlen _]. unfold next.
  destruct (lookup_lt_is_Some_2 l x) as [y ->]; [lia | done].
Qed.

Lemma next_lt x : x < N → next l x < N.
Proof.
  intros Hx. destruct Hvalid as [_ Hin].
  eapply (Forall_lookup_1 _ _ _ _ Hin). by apply next_lookup.
Qed.

Lemma orbit_lt n : orbit l n < N.
Proof. induction n as [|n IH]; simpl; [done | by apply next_lt]. Qed.

Lemma stride_of_fits x : x < N → fits N (stride_of l x).
Proof.
  intros Hx. pose proof (next_lt x Hx). unfold fits, stride_of. lia.
Qed.

Lemma stride_of_bounds x :
  x < N → (- (Z.of_nat N - 1) ≤ stride_of l x ≤ Z.of_nat N - 1)%Z.
Proof.
  intros Hx. pose proof (next_lt x Hx). unfold stride_of. lia.
Qed.

Lemma trail_lt k x : x ∈ trail l k → x < N.
Proof. intros (j & _ & <-)%elem_of_trail. apply orbit_lt. Qed.

Lemma trail_strides_fit k : Forall (fits N) (stride_of l <$> trail l k).
Proof.
  apply Forall_fmap, Forall_forall. intros x Hx. simpl.
  apply stride_of_fits. by eapply trail_lt.
Qed.

Lemma NoDup_trail_length k : NoDup (trail l k) → k ≤ N.
Proof.
  intros Hnd. rewrite <- (length_trail l k).
  apply NoDup_bounded_length; [done | apply trail_lt].
Qed.

(** The chain closes after at most [N] hops. *)
Lemma closes_within n k :
  NoDup (trail l k) → N ≤ n + k →
  ∃ k', k ≤ k' ≤ N ∧ closes_at l k'.
Proof.
  revert k. induction n as [|n IH]; intros k Hnd Hle.
  - pose proof (NoDup_trail_length k Hnd).
    destruct (decide (orbit l k ∈ trail l k)) as [Hin|Hout].
    + exists k. split; [lia | by split].
    + assert (NoDup (trail l (S k))) as Hnd'.
      { rewrite trail_S. apply NoDup_app. split_and!; [done | |apply NoDup_singleton].
        intros x Hx ->%list_elem_of_singleton. done. }
      apply NoDup_trail_length in Hnd'. lia.
  - destruct (decide (orbit l k ∈ trail l k)) as [Hin|Hout].
    + pose proof (NoDup_trail_length k Hnd).
      exists k. split; [lia | by split].
    + assert (NoDup (trail l (S k))) as Hnd'.
      { rewrite trail_S. apply NoDup_app. split_and!; [done | |apply NoDup_singleton].
        intros x Hx ->%list_elem_of_singleton. done. }
      destruct (IH (S k) Hnd') as (k' & Hk' & Hc); [lia|].
      exists k'. split; [lia | done].
Qed.

Lemma closes_exists : ∃ k, 1 ≤ k ≤ N ∧ closes_at l k.
Proof.
  destruct (closes_within N 0) as (k & Hk & Hnd & Hin); [apply NoDup_nil_2 | lia |].
  exists k. split; [|by split].
  destruct k; [by apply elem_of_nil in Hin | lia].
Qed.

(** Once the chain has closed, it stays among the slots it has left. *)
Lemma closed_orbit k n : closes_at l k → orbit l n ∈ trail l k.
Proof.
  intros [Hnd Hin]. induction n as [|n IH].
  - destruct k; [by apply elem_of_nil in Hin|].
    apply elem_of_trail. exists 0. split; [lia | done].
  - apply elem_of_trail in IH as (j & Hj & Hoj). simpl. rewrite <- Hoj.
    destruct (decide (S j = k)) as [<-|Hne]; [done|].
    apply elem_of_trail. exists (S j). split; [lia | done].
Qed.

Lemma closed_reached k x : closes_at l k → reached l x ↔ x ∈ trail l k.
Proof.
  intros Hk. split.
  - intros [n <-]. by apply closed_orbit.
  - intros (j & _ & <-)%elem_of_trail. by exists j.
Qed.

Lemma closes_at_unique j k : closes_at l j → closes_at l k → j = k.
Proof.
  assert (∀ a b, a < b → closes_at l a → closes_at l b → False) as Hlt.
  { intros a b Hab [_ Ha] [Hb _].
    by apply (NoDup_trail_fresh l a b Hab Hb). }
  intros Hj Hk. destruct (Nat.lt_trichotomy j k) as [?|[?|?]];
    [by destruct (Hlt j k) | done | by destruct (Hlt k j)].
Qed.
End chain.

(** ** The pointer chase *)

Lemma length_marks N l k : length (marks N l k) = N.
Proof. unfold marks. by rewrite length_fmap, length_seq. Qed.

Lemma marks_lookup N l k i :
  i < N → marks N l k !! i = Some (bool_decide (i ∈ trail l k)).
Proof.
  intros Hi. unfold marks. by rewrite list_lookup_fmap, lookup_seq_lt by done.
Qed.

Lemma marks_0 N l : marks N l 0 = replicate N false.
Proof.
  apply list_eq. intros i. destruct (decide (i < N)) as [Hi|Hi].
  - rewrite marks_lookup by done. symmetry.
    rewrite lookup_replicate_2 by done. done.
  - rewrite !lookup_ge_None_2
      by (rewrite ?length_replicate, ?length_marks; lia). done.
Qed.

Lemma marks_S N l k :
  <[orbit l k := true]> (marks N l k) = marks N l (S k).
Proof.
  apply list_eq. intros i. destruct (decide (i < N)) as [Hi|Hi].
  - rewrite (marks_lookup _ _ (S k)) by done. rewrite trail_S.
    destruct (decide (i = orbit l k)) as [->|Hne].
    + rewrite list_lookup_insert_eq by (by rewrite length_marks).
      rewrite bool_decide_eq_true_2; [done|].
      apply elem_of_app. right. by apply list_elem_of_singleton.
    + rewrite list_lookup_insert_ne by done. rewrite marks_lookup by done.
      f_equal. apply bool_decide_ext. rewrite elem_of_app, list_elem_of_singleton.
      tauto.
  - rewrite !lookup_ge_None_2
      by (rewrite ?length_insert, ?length_marks; lia). done.
Qed.

Section chase_correct.
Variables (N : nat) (l : list nat).
Hypothesis Hvalid : valid N l.
Hypothesis HN : 0 < N.

(** One turn of the loop moves the variables one hop along the chain. *)
Lemma chase_body_snapshot k :
  chase_body N (snapshot N l k) = Ok (snapshot N l (S k)).
Proof.
  pose proof (orbit_lt N l Hvalid HN k) as Hp.
  pose proof (next_lt N l Hvalid HN _ Hp) as Hq.
  set (goal := snapshot N l (S k)).
  unfold chase_body, snapshot. simpl.
  rewrite store_lt by (by rewrite length_marks). simpl.
  rewrite (load_lookup _ _ _ (next_lookup N l Hvalid HN _ Hp)). simpl.
  set (i := (Z.of_nat N + (Z.of_nat (next l (orbit l k)) - Z.of_nat (orbit l k)))%Z).
  destruct (lookup_lt_is_Some_2 (tally N (stride_of l <$> trail l k)) (Z.to_nat i))
    as [c Hc].
  { rewrite length_tally. lia. }
  rewrite (loadZ_lookup _ _ c) by (done || lia). simpl.
  rewrite storeZ_lt by (rewrite ?length_tally; lia). simpl.
  unfold mret, outcome_ret, goal, snapshot. f_equal. f_equal.
  - apply marks_S.
  - lia.
  - rewrite trail_S, fmap_app.
    change (stride_of l <$> [orbit l k]) with [stride_of l (orbit l k)].
    rewrite tally_snoc. unfold bump.
    change (Z.of_nat N + stride_of l (orbit l k))%Z with i. by rewrite Hc.
Qed.

(** The loop leaves exactly when the chain closes, after as many turns as
    the chain has slots. *)
Lemma chase_snapshot k' :
  closes_at l k' →
  ∀ fuel k, k < k' →
    chase fuel N (snapshot N l k) =
    if decide (k' - k ≤ fuel) then Ok (snapshot N l k') else OutOfFuel.
Proof.
  intros [Hnd Hin]. induction fuel as [|fuel IH]; intros k Hk.
  - simpl. rewrite decide_False by lia. done.
  - cbn [chase]. rewrite chase_body_snapshot, bind_Ok.
    change (visited (snapshot N l (S k))) with (marks N l (S k)).
    change (p (snapshot N l (S k))) with (orbit l (S k)).
    rewrite (load_lookup _ _ _
               (marks_lookup N l (S k) _ (orbit_lt N l Hvalid HN (S k)))).
    rewrite bind_Ok. destruct (decide (S k = k')) as [<-|Hne].
    + rewrite bool_decide_eq_true_2 by done.
      rewrite decide_True by lia. done.
    + rewrite bool_decide_eq_false_2
        by (apply (NoDup_trail_fresh l (S k) k'); [lia | done]).
      rewrite IH by lia. destruct (decide (k' - S k ≤ fuel)).
      * rewrite decide_True by lia. done.
      * rewrite decide_False by lia. done.
Qed.

(** The analysis reports the chain: its length is the number of slots
    reached from slot 0, and the loop takes that many turns. *)
Lemma analyze_closes k fuel :
  closes_at l k →
  analyze fuel N l = if decide (k ≤ fuel) then Ok (report_at N l k) else OutOfFuel.
Proof.
  intros Hk. assert (0 < k) as Hpos.
  { destruct k; [|lia]. destruct Hk as [_ Hin]. by apply elem_of_nil in Hin. }
  unfold analyze. rewrite <- marks_0 with (l := l).
  change (chase fuel N _) with (chase fuel N (snapshot N l 0)).
  rewrite (chase_snapshot k Hk) by done. rewrite Nat.sub_0_r.
  destruct (decide (k ≤ fuel)); done.
Qed.

Lemma analyze_spec :
  ∃ k, 1 ≤ k ≤ N ∧ closes_at l k ∧
       ∀ fuel, k ≤ fuel → analyze fuel N l = Ok (report_at N l k).
Proof.
  destruct (closes_exists N l Hvalid HN) as (k & Hk & Hc).
  exists k. split_and!; [lia | lia | done |].
  intros fuel Hf. rewrite (analyze_closes k fuel Hc). by rewrite decide_True.
Qed.
End chase_correct.

(** ** Hamiltonian cycles *)

Section hamiltonian_chain.
Variables (N : nat) (l : list nat).
Hypothesis Hham : hamiltonian N l.

Lemma hamiltonian_pos : 0 < N.
Proof.
  destruct Hham as (_ & order & Hperm & H0 & _).
  apply lookup_lt_Some in H0. apply Permutation_length in Hperm.
  rewrite length_seq in Hperm. lia.
Qed.

Lemma hamiltonian_valid : valid N l.
Proof.
  pose proof hamiltonian_pos as HN.
  destruct Hham as (Hlen & order & Hperm & H0 & Hlink).
  pose proof (Permutation_length Hperm) as Hlo. rewrite length_seq in Hlo.
  split; [done|]. apply Forall_lookup_2. intros x y Hxy.
  assert (x ∈ order) as [i Hi]%list_elem_of_lookup.
  { rewrite Hperm. apply elem_of_seq. apply lookup_lt_Some in Hxy. lia. }
  rewrite (Hlink _ _ Hi) in Hxy. injection Hxy as <-.
  destruct (lookup_lt_is_Some_2 order (S i `mod` N)) as [z Hz].
  { rewrite Hlo. apply Nat.mod_upper_bound. lia. }
  rewrite Hz. simpl. apply list_elem_of_lookup_2 in Hz.
  rewrite Hperm in Hz. apply elem_of_seq in Hz. lia.
Qed.

(** The chain from slot 0 follows the cycle and closes after [N] hops. *)
Lemma hamiltonian_closes :
  closes_at l N ∧ orbit l N = 0 ∧ trail l N ≡ₚ seq 0 N.
Proof.
  pose proof hamiltonian_pos as HN.
  destruct Hham as (Hlen & order & Hperm & H0 & Hlink).
  pose proof (Permutation_length Hperm) as Hlo. rewrite length_seq in Hlo.
  assert (∀ i, i < N → order !! i = Some (orbit l i)) as Horb.
  { induction i as [|i IH]; intros Hi; [done|].
    specialize (IH ltac:(lia)). simpl. unfold next.
    rewrite (Hlink _ _ IH). simpl. rewrite Nat.mod_small by done.
    destruct (lookup_lt_is_Some_2 order (S i)) as [z Hz]; [lia|].
    by rewrite Hz. }
  assert (trail l N = order) as Htr.
  { apply list_eq_same_length with N; [done | apply length_trail |].
    intros i x y Hi Hx Hy. rewrite trail_lookup in Hx by done.
    rewrite Horb in Hy by done. congruence. }
  assert (orbit l N = 0) as HoN.
  { assert (orbit l (S (N - 1)) = 0) as HS;
      [|by replace (S (N - 1)) with N in HS by lia].
    simpl. unfold next.
    rewrite (Hlink (N - 1) (orbit l (N - 1))) by (apply Horb; lia).
    replace (S (N - 1)) with N by lia.
    rewrite Nat.Div0.mod_same. by rewrite H0. }
  split; [|by rewrite Htr]. split.
  - rewrite Htr, Hperm. apply NoDup_seq.
  - rewrite HoN. apply elem_of_trail. exists 0. done.
Qed.
End hamiltonian_chain.

(** ** Counted loops *)

Lemma for_loop_inv {St} (P : nat → St → Prop) body lo n (st : St) :
  P lo st →
  (∀ i s, lo ≤ i < lo + n → P i s → ∃ s', body i s = Ok s' ∧ P (S i) s') →
  ∃ st', for_loop lo n body st = Ok st' ∧ P (lo + n) st'.
Proof.
  revert lo st. induction n as [|n IH]; intros lo st Hst Hbody.
  - exists st. rewrite Nat.add_0_r. done.
  - destruct (Hbody lo st) as (s' & Hs' & HP); [lia | done |].
    destruct (IH (S lo) s') as (st' & Hst' & HP'); [done | |].
    { intros i s Hi. apply Hbody. lia. }
    exists st'. cbn [for_loop]. rewrite Hs', bind_Ok.
    replace (lo + S n) with (S lo + n) by lia. done.
Qed.

(** ** The shuffle *)

Lemma iter_swap_lookup {A} (a : list A) i j x y :
  a !! i = Some x → a !! j = Some y →
  iter_swap a i j = Ok (<[j := x]> (<[i := y]> a)).
Proof.
  intros Hi Hj. unfold iter_swap.
  rewrite (load_lookup _ _ _ Hi), bind_Ok, (load_lookup _ _ _ Hj), bind_Ok.
  rewrite store_lt by (by eapply lookup_lt_Some). rewrite bind_Ok.
  apply store_lt. rewrite length_insert. by eapply lookup_lt_Some.
Qed.

Lemma uniform_le g k bound : uniform g k bound ≤ bound.
Proof.
  unfold uniform. pose proof (Nat.mod_upper_bound (g k) (S bound)). lia.
Qed.

(** The shuffle rearranges the elements of the range and touches nothing
    outside of it. *)
Lemma shuffle_spec {A} (a : list A) first last g :
  first ≤ last → last ≤ length a →
  ∃ a', shuffle a first last g = Ok a' ∧ a' ≡ₚ a ∧ length a' = length a ∧
        ∀ j, ¬ (first ≤ j < last) → a' !! j = a !! j.
Proof.
  intros Hfl Hla. unfold shuffle. rewrite decide_True by done.
  destruct (for_loop_inv
    (λ _ a', a' ≡ₚ a ∧ length a' = length a ∧
             ∀ j, ¬ (first ≤ j < last) → a' !! j = a !! j)
    (λ k a, iter_swap a (first + k) (first + uniform g k k))
    1 (last - first - 1) a) as (a' & Ha' & HP); [done | | by exists a'].
  intros k s Hk (Hperm & Hlen & Hout).
  pose proof (uniform_le g k k) as Hu.
  destruct (lookup_lt_is_Some_2 s (first + k)) as [x Hx]; [lia|].
  destruct (lookup_lt_is_Some_2 s (first + uniform g k k)) as [y Hy]; [lia|].
  eexists. split; [by apply iter_swap_lookup|]. split_and!.
  - by rewrite Permutation_insert_swap.
  - by rewrite !length_insert.
  - intros j Hj. rewrite !list_lookup_insert_ne by lia. by apply Hout.
Qed.

(** ** The traversal order *)

Lemma seq_split N : 2 ≤ N → seq 0 N = 0 :: seq 1 (N - 2) ++ [N - 1].
Proof.
  intros HN. destruct N as [|[|n]]; [lia | lia |].
  replace (S (S n) - 2) with n by lia. replace (S (S n) - 1) with (S n) by lia.
  change (seq 0 (S (S n))) with (0 :: seq 1 (S n)). by rewrite seq_S.
Qed.

Lemma seq_ends N : 2 ≤ N → seq 0 N ++ [0] = 0 :: seq 1 (N - 2) ++ [N - 1; 0].
Proof.
  intros HN. rewrite (seq_split N) by done. simpl. by rewrite <- app_assoc.
Qed.

(** The filling loop and the assignment that closes the cycle. *)
Lemma order_filled N junk :
  (t ← for_loop 0 N (λ i t, store t i i) (new_array (N + 1) junk);
   store t N 0) = Ok (seq 0 N ++ [0]).
Proof.
  destruct (for_loop_inv
    (λ i t, length t = N + 1 ∧ ∀ j, j < i → t !! j = Some j)
    (λ i t, store t i i) 0 N (new_array (N + 1) junk)) as (t & Ht & Hlen & Hlk).
  { split; [|lia]. unfold new_array. by rewrite length_fmap, length_seq. }
  { intros i s Hi [Hlen Hlk]. eexists. split; [apply store_lt; lia|]. split.
    - by rewrite length_insert.
    - intros j Hj. destruct (decide (j = i)) as [->|Hne].
      + apply list_lookup_insert_eq. lia.
      + rewrite list_lookup_insert_ne by done. apply Hlk. lia. }
  rewrite Ht, bind_Ok, store_lt by lia. f_equal.
  apply list_eq_same_length with (N + 1).
  - rewrite length_app, length_seq. simpl. lia.
  - by rewrite length_insert.
  - intros i x y Hi Hx Hy. destruct (decide (i = N)) as [->|Hne].
    + rewrite list_lookup_insert_eq in Hx by lia.
      rewrite lookup_app_r, length_seq, Nat.sub_diag in Hy
        by (rewrite length_seq; lia).
      simpl in Hy. congruence.
    + rewrite list_lookup_insert_ne in Hx by done.
      rewrite Hlk in Hx by lia.
      rewrite lookup_app_l, lookup_seq_lt in Hy by (rewrite ?length_seq; lia).
      simpl in Hy. congruence.
Qed.

(** After the shuffle the traversal order still starts at 0 and ends with
    [N-1, 0]; in between stands a rearrangement of [1 .. N-2]. *)
Lemma traversal_order_shape N junk g :
  2 ≤ N →
  ∃ mid, traversal_order N junk g = Ok (0 :: mid ++ [N - 1; 0]) ∧
         mid ≡ₚ seq 1 (N - 2).
Proof.
  intros HN. unfold traversal_order.
  pose proof (order_filled N junk) as Hfill.
  destruct (for_loop 0 N _ _) as [t1| |]; try done. rewrite bind_Ok in Hfill |- *.
  rewrite Hfill, bind_Ok.
  assert (length (seq 0 N ++ [0]) = N + 1) as Hlen0.
  { rewrite length_app, length_seq. simpl. lia. }
  destruct (shuffle_spec (seq 0 N ++ [0]) 1 (N - 1) g)
    as (t & Ht & Hperm & Hlen & Hout); [lia | lia |].
  rewrite Hlen0 in Hlen. rewrite seq_ends in Hperm, Hout by done.
  exists (take (N - 2) (drop 1 t)).
  assert (t = 0 :: take (N - 2) (drop 1 t) ++ [N - 1; 0]) as Hshape.
  { apply list_eq_same_length with (N + 1); [|done|].
    { simpl. rewrite length_app, length_take, length_drop. simpl. lia. }
    intros i x y Hi Hx Hy.
    destruct (decide (1 ≤ i < N - 1)) as [Hin|Hnin].
    - destruct i as [|i]; [lia|]. simpl in Hy.
      rewrite lookup_app_l in Hy by (rewrite length_take, length_drop; lia).
      rewrite lookup_take_lt, lookup_drop in Hy by lia. simpl in Hy. congruence.
    - rewrite (Hout i Hnin) in Hx.
      destruct i as [|i]; [simpl in Hx, Hy; congruence|]. simpl in Hx, Hy.
      rewrite lookup_app_r in Hx by (rewrite length_seq; lia).
      rewrite lookup_app_r in Hy by (rewrite length_take, length_drop; lia).
      rewrite length_seq in Hx. rewrite length_take, length_drop in Hy.
      replace (N + 1 - 1) with N in Hy by lia.
      rewrite Nat.min_l in Hy by lia. congruence. }
  split; [by rewrite Ht, <- Hshape|].
  rewrite Hshape in Hperm at 1.
  apply Permutation_cons_inv, Permutation_app_inv_r in Hperm. done.
Qed.

(** ** The generated pointer array *)

(** The last loop of [getlist] makes every slot of the traversal order
    point to the slot that follows it in that order. *)
Lemma implement_order N (order l0 : list nat) :
  length order = N → NoDup order → (∀ x, x ∈ order → x < N) → length l0 = N →
  ∃ l, for_loop 0 N
         (λ i l, a ← load (order ++ [0]) i;
                 b ← load (order ++ [0]) (i + 1);
                 store l a b) l0 = Ok l ∧
       length l = N ∧
       ∀ j x y, j < N → (order ++ [0]) !! j = Some x →
                (order ++ [0]) !! S j = Some y → l !! x = Some y.
Proof.
  intros Hlo Hnd Hlt Hl0. set (t := order ++ [0]).
  assert (length t = N + 1) as Hlt'.
  { unfold t. rewrite length_app. simpl. lia. }
  destruct (for_loop_inv
    (λ i l, length l = N ∧
            ∀ j x y, j < i → t !! j = Some x → t !! S j = Some y →
                     l !! x = Some y)
    (λ i l, a ← load t i; b ← load t (i + 1); store l a b) 0 N l0)
    as (l & Hl & Hlen & Hlk).
  { split; [done|]. intros; lia. }
  { intros i s Hi [Hlen Hlk].
    destruct (lookup_lt_is_Some_2 t i) as [a Ha]; [lia|].
    destruct (lookup_lt_is_Some_2 t (i + 1)) as [b Hb]; [lia|].
    assert (order !! i = Some a) as Hoa.
    { unfold t in Ha. by rewrite lookup_app_l in Ha by lia. }
    assert (a < N) as HaN by (by eapply Hlt, list_elem_of_lookup_2).
    rewrite (load_lookup _ _ _ Ha), bind_Ok, (load_lookup _ _ _ Hb), bind_Ok.
    eexists. split; [apply store_lt; lia|]. split.
    - by rewrite length_insert.
    - intros j x y Hj Hx Hy. destruct (decide (j = i)) as [->|Hne].
      + replace (i + 1) with (S i) in Hb by lia.
        assert (x = a) as -> by congruence. assert (y = b) as -> by congruence.
        apply list_lookup_insert_eq. lia.
      + assert (order !! j = Some x) as Hox.
        { unfold t in Hx. by rewrite lookup_app_l in Hx by lia. }
        rewrite list_lookup_insert_ne.
        * apply (Hlk j); [lia | done | done].
        * intros ->. apply Hne. by eapply NoDup_lookup. }
  exists l. split; [done|]. split; [done|]. intros j x y Hj. by apply Hlk.
Qed.

(** The array [getlist] returns is one cycle through all slots, in which
    slot [N-1] points back to slot 0. *)
Lemma getlist_hamiltonian N junkl junk g :
  2 ≤ N →
  ∃ l, getlist (permutated_list_generator N junkl) junk g = Ok l ∧
       hamiltonian N l ∧ l !! (N - 1) = Some 0.
Proof.
  intros HN. destruct (traversal_order_shape N junk g HN) as (mid & Ht & Hmid).
  pose proof (Permutation_length Hmid) as Hlm. rewrite length_seq in Hlm.
  set (order := 0 :: mid ++ [N - 1]).
  assert (0 :: mid ++ [N - 1; 0] = order ++ [0]) as Hshape.
  { unfold order. simpl. by rewrite <- app_assoc. }
  assert (order ≡ₚ seq 0 N) as Hperm.
  { rewrite (seq_split N) by done. unfold order. by rewrite Hmid. }
  assert (length order = N) as Hlo.
  { unfold order. simpl. rewrite length_app. simpl. lia. }
  destruct (implement_order N order (new_array N junkl)) as (l & Hl & Hlen & Hlk).
  { done. }
  { rewrite Hperm. apply NoDup_seq. }
  { intros x Hx. rewrite Hperm in Hx. apply elem_of_seq in Hx. lia. }
  { unfold new_array. by rewrite length_fmap, length_seq. }
  exists l. split; [|split].
  - unfold getlist. simpl. rewrite Ht, bind_Ok, Hshape. done.
  - split; [done|]. exists order. split; [done|]. split; [done|].
    intros i x Hi. pose proof (lookup_lt_Some _ _ _ Hi) as HiN.
    destruct (decide (S i = N)) as [HSi|HSi].
    + rewrite HSi, Nat.Div0.mod_same. simpl.
      apply (Hlk i); [lia | by rewrite lookup_app_l by lia |].
      rewrite lookup_app_r by lia. by replace (S i - length order) with 0 by lia.
    + rewrite Nat.mod_small by lia.
      destruct (lookup_lt_is_Some_2 order (S i)) as [y Hy]; [lia|].
      rewrite Hy. simpl.
      apply (Hlk i); [lia | | ]; by rewrite lookup_app_l by lia.
  - apply (Hlk (N - 1)); [lia | |].
    + rewrite lookup_app_l by lia. unfold order.
      rewrite lookup_cons_ne_0 by lia.
      rewrite lookup_app_r by lia.
      by replace (pred (N - 1) - length mid) with 0 by lia.
    + rewrite lookup_app_r by lia.
      by replace (S (N - 1) - length order) with 0 by lia.
Qed.

(** ** What every completed chase preserves *)

Lemma bind_Ok_inv {A B} (m : outcome A) (k : A → outcome B) b :
  (m ≫= k) = Ok b → ∃ a, m = Ok a ∧ k a = Ok b.
Proof. destruct m as [a| |]; [|done|done]. intros Hk. by exists a. Qed.

Lemma store_Ok_inv {A} (a a' : list A) i x :
  store a i x = Ok a' → i < length a ∧ a' = <[i := x]> a.
Proof. unfold store. case_decide; [|done]. intros [= <-]. done. Qed.

Lemma load_Ok_inv {A} (a : list A) i x : load a i = Ok x → a !! i = Some x.
Proof. unfold load. destruct (a !! i); [|done]. by intros [= <-]. Qed.

Lemma chase_body_Ok N st st' :
  chase_body N st = Ok st' →
  lst st' = lst st ∧ cyclelength st' = (cyclelength st + 1)%Z ∧
  total (strides st') = (total (strides st) + 1)%Z.
Proof.
  unfold chase_body.
  intros (vis & _ & H)%bind_Ok_inv. apply bind_Ok_inv in H as (tgt & _ & H).
  apply bind_Ok_inv in H as (cnt & Hcnt & H).
  apply bind_Ok_inv in H as (str & Hstr & H). injection H as <-. simpl.
  split; [done|]. split; [done|].
  unfold loadZ in Hcnt. unfold storeZ in Hstr. case_decide; [|done].
  apply load_Ok_inv in Hcnt. apply store_Ok_inv in Hstr as [_ ->].
  rewrite (total_insert _ _ cnt) by done. lia.
Qed.

Lemma chase_Ok fuel N st st' :
  chase fuel N st = Ok st' →
  lst st' = lst st ∧
  (total (strides st') - cyclelength st' = total (strides st) - cyclelength st)%Z.
Proof.
  revert st. induction fuel as [|fuel IH]; intros st; [done|]. cbn [chase].
  intros (st1 & Hst1 & H)%bind_Ok_inv.
  apply bind_Ok_inv in H as (seen & _ & H).
  apply chase_body_Ok in Hst1 as (Hl & Hc & Ht).
  destruct seen.
  - injection H as <-. split; [done | lia].
  - apply IH in H as [Hl' Ht']. split; [congruence | lia].
Qed.

Lemma analyze_Ok fuel N l r :
  analyze fuel N l = Ok r →
  r_list r = l ∧ total (r_strides r) = r_cyclelength r.
Proof.
  unfold analyze. intros (st & Hst & H)%bind_Ok_inv. injection H as <-. simpl.
  apply chase_Ok in Hst as [Hl Ht]. simpl in Hl, Ht.
  rewrite total_replicate_0 in Ht. split; [done | lia].
Qed.

(** ** Coverage *)

Lemma coverage_full N : 0 < N → (coverage (Z.of_nat N) N == 100)%Q.
Proof.
  intros HN. unfold coverage. apply Qdiv_mult_l.
  unfold Qeq. simpl. lia.
Qed.

Lemma coverage_lt k N : 0 < N → (coverage (Z.of_nat k) N < 100)%Q ↔ k < N.
Proof.
  intros HN. unfold coverage.
  destruct (Z.of_nat N) as [|n|n] eqn:Hn; [lia | | lia].
  unfold Qlt, Qdiv, Qmult, Qinv. simpl. lia.
Qed.

(** ** The display buckets *)

Lemma edge_quot N i :
  edge N i = ((2 * Z.of_nat N * Z.of_nat i - 20 * Z.of_nat N) ÷ 20)%Z.
Proof.
  unfold edge, truncate. simpl. f_equal. lia.
Qed.

Lemma edge_0 N : edge N 0 = (- Z.of_nat N)%Z.
Proof.
  rewrite edge_quot.
  replace (2 * Z.of_nat N * Z.of_nat 0 - 20 * Z.of_nat N)%Z
    with (- Z.of_nat N * 20)%Z by lia.
  by apply Z.quot_mul.
Qed.

Lemma edge_20 N : edge N 20 = Z.of_nat N.
Proof.
  rewrite edge_quot.
  replace (2 * Z.of_nat N * Z.of_nat 20 - 20 * Z.of_nat N)%Z
    with (Z.of_nat N * 20)%Z by lia.
  by apply Z.quot_mul.
Qed.

Lemma edge_mono N i j : i ≤ j → (edge N i ≤ edge N j)%Z.
Proof.
  intros Hij. rewrite !edge_quot. apply Z.quot_le_mono; [lia | nia].
Qed.

Lemma edge_range N i : i ≤ 20 → (- Z.of_nat N ≤ edge N i ≤ Z.of_nat N)%Z.
Proof.
  intros Hi. pose proof (edge_mono N 0 i). pose proof (edge_mono N i 20).
  rewrite edge_0 in *. rewrite edge_20 in *. lia.
Qed.

Lemma sum_from_total strides lo n acc :
  lo + n ≤ length strides →
  sum_from strides (Z.of_nat lo) n acc =
  Ok (acc + total (take n (drop lo strides)))%Z.
Proof.
  revert lo acc. induction n as [|n IH]; intros lo acc Hlen.
  - simpl. unfold total. simpl. f_equal. lia.
  - cbn [sum_from].
    destruct (lookup_lt_is_Some_2 strides lo) as [x Hx]; [lia|].
    rewrite (loadZ_lookup _ _ x), bind_Ok by (rewrite ?Nat2Z.id; done || lia).
    replace (Z.of_nat lo + 1)%Z with (Z.of_nat (S lo)) by lia.
    rewrite IH by lia. f_equal.
    rewrite (drop_S _ _ _ Hx). simpl. unfold total. simpl. lia.
Qed.

Lemma for_loop_post {St} (P : nat → St → Prop) body lo n (st st' : St) :
  P lo st →
  (∀ i s s', lo ≤ i < lo + n → P i s → body i s = Ok s' → P (S i) s') →
  for_loop lo n body st = Ok st' → P (lo + n) st'.
Proof.
  revert lo st. induction n as [|n IH]; intros lo st Hst Hbody.
  - intros [= <-]. by rewrite Nat.add_0_r.
  - cbn [for_loop]. intros (s & Hs & Hrest)%bind_Ok_inv.
    replace (lo + S n) with (S lo + n) by lia.
    apply (IH (S lo) s); [| |done].
    + apply (Hbody lo st); [lia | done | done].
    + intros i s1 s2 Hi. apply Hbody. lia.
Qed.

Lemma total_bounded (m : Z) (cs : list Z) :
  Forall (λ c, c ≤ m)%Z cs → (total cs ≤ Z.of_nat (length cs) * m)%Z.
Proof.
  induction 1 as [|c cs Hc _ IH]; unfold total in *; simpl; [done | lia].
Qed.

(** The first loop over the display buckets: the 20 buckets share out all
    the counts of the buffer, and [maxAmount] bounds each of them. *)
Lemma fill_buckets N strides :
  length strides = 2 * N →
  ∃ bs m, for_loop 0 20 (fill_bucket N strides) ([], 0%Z) = Ok (bs, m) ∧
          length bs = 20 ∧ total (b_count <$> bs) = total strides ∧
          (0 ≤ m)%Z ∧ Forall (λ c, c ≤ m)%Z (b_count <$> bs).
Proof.
  intros Hlen.
  destruct (for_loop_inv
    (λ i st, i ≤ 20 ∧ length st.1 = i ∧
             total (b_count <$> st.1) =
               total (take (Z.to_nat (edge N i + Z.of_nat N)) strides) ∧
             (0 ≤ st.2)%Z ∧ Forall (λ c, c ≤ st.2)%Z (b_count <$> st.1))
    (fill_bucket N strides) 0 20 ([], 0%Z))
    as ([bs m] & Hst & _ & Hl & Ht & Hm & Hall).
  { simpl. rewrite edge_0. replace (Z.to_nat _) with 0 by lia.
    split_and!; [lia | done | done | done | constructor]. }
  { intros i [bs m] Hi (_ & Hl & Ht & Hm & Hall). simpl in *.
    pose proof (edge_range N i ltac:(lia)) as Ha.
    pose proof (edge_range N (S i) ltac:(lia)) as Hb.
    pose proof (edge_mono N i (S i) ltac:(lia)) as Hab.
    unfold fill_bucket. replace (i + 1) with (S i) by lia. simpl.
    set (lo := Z.to_nat (edge N i + Z.of_nat N)) in *.
    set (n := Z.to_nat (edge N (S i) - edge N i)).
    replace (edge N i + Z.of_nat N)%Z with (Z.of_nat lo) by lia.
    rewrite sum_from_total, bind_Ok by lia.
    eexists. split; [done|]. simpl.
    replace (Z.to_nat (edge N (S i) + Z.of_nat N)) with (lo + n) by lia.
    rewrite fmap_app, total_app, Ht, <- take_take_drop, total_app. simpl.
    split_and!.
    - lia.
    - rewrite length_app. simpl. lia.
    - unfold total. simpl. lia.
    - case_decide; lia.
    - apply Forall_app. split.
      + eapply Forall_impl; [done|]. intros c Hc. simpl in Hc.
        case_decide; lia.
      + constructor; [|constructor]. simpl. case_decide; lia. }
  exists bs, m. simpl in *. split_and!; try done.
  rewrite Ht, edge_20, take_ge; [done | lia].
Qed.

(** Whenever it completes, the first loop has filled 20 buckets. *)
Lemma fill_buckets_length N strides bs m :
  for_loop 0 20 (fill_bucket N strides) ([], 0%Z) = Ok (bs, m) →
  length bs = 20.
Proof.
  intros H.
  apply (for_loop_post (λ i st, length st.1 = i)
           (fill_bucket N strides) 0 20 ([], 0%Z) (bs, m) eq_refl); [|done].
  intros i [bs1 m1] s' _ Hl. unfold fill_bucket. simpl in *.
  intros (h & _ & [= <-])%bind_Ok_inv. simpl. rewrite length_app. simpl. lia.
Qed.

(** The second loop prints one line per bucket when [maxAmount] is not 0 ... *)
Lemma draw_bars bs m :
  m ≠ 0%Z → for_loop 0 (length bs) (draw_bar bs m) [] = Ok (bar_of m <$> bs).
Proof.
  intros Hm.
  destruct (for_loop_inv (λ i out, out = bar_of m <$> take i bs)
              (draw_bar bs m) 0 (length bs) []) as (out & Hout & ->).
  { done. }
  { intros i s Hi ->.
    destruct (lookup_lt_is_Some_2 bs i) as [bk Hbk]; [lia|].
    unfold draw_bar. rewrite (load_lookup _ _ _ Hbk), bind_Ok.
    unfold divide. rewrite decide_False, bind_Ok by done.
    eexists. split; [done|].
    by rewrite (take_S_r _ _ _ Hbk), fmap_app. }
  rewrite Hout. simpl. by rewrite firstn_all.
Qed.

(** ... and divides by zero on its first turn when it is. *)
Lemma draw_bars_zero bs :
  0 < length bs → for_loop 0 (length bs) (draw_bar bs 0) [] = Undefined.
Proof.
  destruct bs as [|bk bs]; simpl; [lia|]. intros _. done.
Qed.

Lemma render_zero N strides :
  max_amount N strides = Ok 0%Z → render N strides = Undefined.
Proof.
  unfold max_amount, render.
  intros ([bs m] & Hst & [= Hm])%bind_Ok_inv. simpl in Hm. subst m.
  rewrite Hst, bind_Ok. cbn [fst snd].
  pose proof (fill_buckets_length _ _ _ _ Hst) as Hl.
  rewrite <- Hl. apply draw_bars_zero. lia.
Qed.

Lemma render_nonzero N strides m :
  max_amount N strides = Ok m → m ≠ 0%Z →
  ∃ bs, length bs = 20 ∧ render N strides = Ok (bar_of m <$> bs).
Proof.
  unfold max_amount, render.
  intros ([bs m'] & Hst & [= Hm])%bind_Ok_inv Hne. simpl in Hm. subst m'.
  rewrite Hst, bind_Ok. cbn [fst snd].
  pose proof (fill_buckets_length _ _ _ _ Hst) as Hl.
  exists bs. split; [done|]. rewrite <- Hl. by apply draw_bars.
Qed.

(** A histogram that holds at least one stride has a non-empty display
    bucket. *)
Lemma max_amount_pos N strides :
  length strides = 2 * N → (0 < total strides)%Z →
  ∃ m, max_amount N strides = Ok m ∧ (0 < m)%Z.
Proof.
  intros Hlen Hpos.
  destruct (fill_buckets N strides Hlen) as (bs & m & Hst & Hl & Ht & Hm & Hall).
  exists m. unfold max_amount. rewrite Hst, bind_Ok. split; [done|].
  apply total_bounded in Hall. rewrite length_fmap, Hl, Ht in Hall. lia.
Qed.

Lemma render_total N strides :
  length strides = 2 * N → (0 < total strides)%Z →
  ∃ bars, render N strides = Ok bars ∧ length bars = 20 ∧
          total (bar_count <$> bars) = total strides.
Proof.
  intros Hlen Hpos.
  destruct (max_amount_pos N strides Hlen Hpos) as (m & Hm & Hmpos).
  destruct (render_nonzero N strides m Hm) as (bs & Hl & Hr); [lia|].
  destruct (fill_buckets N strides Hlen) as (bs' & m' & Hst & _ & Ht & _).
  unfold render in Hr. rewrite Hst, bind_Ok in Hr. cbn [fst snd] in Hr.
  unfold max_amount in Hm. rewrite Hst, bind_Ok in Hm. injection Hm as ->.
  pose proof (fill_buckets_length _ _ _ _ Hst) as Hl'.
  rewrite <- Hl', draw_bars in Hr by lia. injection Hr as Hr.
  exists (bar_of m <$> bs'). split; [|split].
  - unfold render. rewrite Hst, bind_Ok. cbn [fst snd].
    rewrite <- Hl'. apply draw_bars. lia.
  - by rewrite length_fmap.
  - rewrite <- list_fmap_compose. exact Ht.
Qed.

Lemma render_Ok_total N strides bars :
  length strides = 2 * N → render N strides = Ok bars →
  total (bar_count <$> bars) = total strides.
Proof.
  intros Hlen Hr.
  destruct (fill_buckets N strides Hlen) as (bs & m & Hst & Hl & Ht & _).
  unfold render in Hr. rewrite Hst, bind_Ok in Hr. cbn [fst snd] in Hr.
  rewrite <- Hl in Hr. destruct (decide (m = 0%Z)) as [->|Hm].
  - rewrite draw_bars_zero in Hr by lia. done.
  - rewrite draw_bars in Hr by done. injection Hr as <-.
    rewrite <- list_fmap_compose. exact Ht.
Qed.

Lemma chase_body_length N st st' :
  chase_body N st = Ok st' → length (strides st') = length (strides st).
Proof.
  unfold chase_body.
  intros (vis & _ & H)%bind_Ok_inv. apply bind_Ok_inv in H as (tgt & _ & H).
  apply bind_Ok_inv in H as (cnt & _ & H).
  apply bind_Ok_inv in H as (str & Hstr & H). injection H as <-. simpl.
  unfold storeZ in Hstr. case_decide; [|done].
  apply store_Ok_inv in Hstr as [_ ->]. by rewrite length_insert.
Qed.

Lemma chase_length fuel N st st' :
  chase fuel N st = Ok st' → length (strides st') = length (strides st).
Proof.
  revert st. induction fuel as [|fuel IH]; intros st; [done|]. cbn [chase].
  intros (st1 & Hst1 & H)%bind_Ok_inv.
  apply bind_Ok_inv in H as (seen & _ & H).
  apply chase_body_length in Hst1. destruct seen.
  - injection H as <-. done.
  - apply IH in H. congruence.
Qed.

Lemma analyze_length fuel N l r :
  analyze fuel N l = Ok r → length (r_strides r) = 2 * N.
Proof.
  unfold analyze. intros (st & Hst & H)%bind_Ok_inv. injection H as <-. simpl.
  apply chase_length in Hst. simpl in Hst. by rewrite length_replicate in Hst.
Qed.

(** ** A cycle with one slot made to point to itself *)

Section corrupted.
Variables (N : nat) (l : list nat) (k : nat).
Hypothesis Hham : hamiltonian N l.
Hypothesis Hk : k < N.

Lemma corrupted_valid : valid N (<[k := k]> l).
Proof.
  destruct (hamiltonian_valid N l Hham) as [Hlen Hall]. split.
  - by rewrite length_insert.
  - apply Forall_insert; done.
Qed.

Lemma corrupted_next_self : next (<[k := k]> l) k = k.
Proof.
  destruct Hham as [Hlen _]. unfold next.
  rewrite list_lookup_insert_eq by lia. done.
Qed.

Lemma corrupted_next_other x : x ≠ k → next (<[k := k]> l) x = next l x.
Proof. intros Hx. unfold next. by rewrite list_lookup_insert_ne. Qed.

(** Up to the corrupted slot the chain is the one of the cycle. *)
Lemma corrupted_orbit j i :
  j < N → orbit l j = k → i ≤ j →
  orbit (<[k := k]> l) i = orbit l i.
Proof.
  intros Hj Hjk. destruct (hamiltonian_closes N l Hham) as ([Hnd _] & _ & _).
  induction i as [|i IH]; intros Hi; [done|]. simpl.
  rewrite IH by lia. apply corrupted_next_other. rewrite <- Hjk.
  intros Heq. assert (i = j); [|lia].
  apply (NoDup_lookup (trail l N) i j (orbit l i) Hnd).
  - apply trail_lookup. lia.
  - rewrite Heq. by apply trail_lookup.
Qed.

Lemma corrupted_closes j :
  j < N → orbit l j = k → closes_at (<[k := k]> l) (S j).
Proof.
  intros Hj Hjk. destruct (hamiltonian_closes N l Hham) as ([Hnd _] & _ & _).
  assert (trail (<[k := k]> l) (S j) = trail l (S j)) as Htr.
  { unfold trail. apply list_eq. intros i. rewrite !list_lookup_fmap.
    destruct (seq 0 (S j) !! i) as [x|] eqn:Hx; [|done]. simpl.
    apply lookup_seq in Hx as [-> Hx]. f_equal.
    apply (corrupted_orbit j); [done | done | lia]. }
  split.
  - rewrite Htr. apply (NoDup_trail_le l (S j) N); [lia | done].
  - simpl. rewrite (corrupted_orbit j j) by done.
    rewrite Hjk, corrupted_next_self, trail_S.
    apply elem_of_app. right. apply list_elem_of_singleton.
    by rewrite (corrupted_orbit j j).
Qed.

(** The corrupted slot is the last of the cycle exactly when it pointed to
    slot 0. *)
Lemma corrupted_last j :
  j < N → orbit l j = k → S j = N ↔ next l k = 0.
Proof.
  intros Hj Hjk.
  destruct (hamiltonian_closes N l Hham) as ([Hnd _] & Ho & _).
  assert (next l k = orbit l (S j)) as -> by (by rewrite <- Hjk).
  split.
  - by intros ->.
  - intros H0. destruct (decide (S j = N)) as [|Hne]; [done|].
    assert (S j = 0); [|lia].
    apply (NoDup_lookup (trail l N) (S j) 0 0 Hnd).
    + rewrite <- H0. apply trail_lookup. lia.
    + apply (trail_lookup l N 0). lia.
Qed.
End corrupted.

(** ** The generator and the analysis together *)

Lemma analyze_hamiltonian N l fuel :
  hamiltonian N l → N ≤ fuel →
  analyze fuel N l = Ok (report_at N l N) ∧ orbit l N = 0.
Proof.
  intros Hham Hfuel.
  pose proof (hamiltonian_valid N l Hham) as Hvalid.
  pose proof (hamiltonian_pos N l Hham) as HN.
  destruct (hamiltonian_closes N l Hham) as (Hc & Ho & _). split; [|done].
  rewrite (analyze_closes N l Hvalid HN N fuel Hc). by rewrite decide_True.
Qed.

Lemma valid_sample_cycle : valid 3 sample_cycle.
Proof. split; [done|]. unfold sample_cycle. repeat constructor. Qed.

Lemma hamiltonian_sample_cycle : hamiltonian 3 sample_cycle.
Proof.
  split; [done|]. exists [0; 1; 2]. split; [done|]. split; [done|].
  intros [|[|[|i]]] x [= <-]; done.
Qed.

(** * The claims *)







(** C4, as the code has it: the shuffle-based generator checks no size and
    raises no error.  For N = 2 the shuffled range is empty and the
    generator returns the two-slot cycle [1, 0], whatever the fresh memory
    holds and whatever the engine draws; for N = 1 the shuffle is called on
    an inverted range, which is undefined behaviour and not a defined
    failure. *)
Theorem small_sizes_unguarded (junkl junk g : nat → nat) :
  getlist (permutated_list_generator 2 junkl) junk g = Ok [1; 0] ∧
  getlist (permutated_list_generator 1 junkl) junk g = Undefined.
Proof. split; reflexivity. Qed.

(** C4 fails as stated: were an error raised for N = 1 and N = 2, no array
    would be returned for these sizes; for N = 2 one is. *)
Lemma small_sizes_error_counterexample :
  ¬ (∀ N w, N = 1 ∨ N = 2 →
       ∀ l, getlist (permutated_list_generator N (junk_list w))
                    (junk_order w) (engine w) ≠ Ok l).
Proof.
  intros H. apply (H 2 sample_world (or_intror eq_refl) [1; 0]). reflexivity.
Qed.












(** C8, as the code has it: the division that computes the length of a bar
    is not guarded.  When [maxAmount] is 0 it is a division by zero, which
    is undefined behaviour, and no bar is printed; when [maxAmount] is not 0,
    20 bars are printed and every empty bucket gets a bar of length 0. *)
Theorem histogram_bars_unguarded (N : nat) (strides : list Z) (m : Z) :
  max_amount N strides = Ok m →
  (m = 0%Z → render N strides = Undefined) ∧
  (m ≠ 0%Z →
   ∃ bars, render N strides = Ok bars ∧ length bars = 20 ∧
           ∀ b, b ∈ bars → bar_count b = 0%Z →
                bar_stars b = 0 ∧ bar_blanks b = 40).
Proof.
  intros Hm. split.
  - intros ->. by apply render_zero.
  - intros Hne. destruct (render_nonzero N strides m Hm Hne) as (bs & Hl & Hr).
    exists (bar_of m <$> bs). split; [done|]. split; [by rewrite length_fmap|].
    intros b (bk & -> & _)%list_elem_of_fmap. unfold bar_of. simpl.
    intros ->. rewrite Z.mul_0_r, Z.quot_0_l by done. done.
Qed.

Lemma histogram_bars_unguarded_witness :
  max_amount 3 [0; 1; 0; 0; 2; 0]%Z = Ok 2%Z ∧
  (2%Z = 0%Z → render 3 [0; 1; 0; 0; 2; 0]%Z = Undefined) ∧
  (2%Z ≠ 0%Z →
   ∃ bars, render 3 [0; 1; 0; 0; 2; 0]%Z = Ok bars ∧ length bars = 20 ∧
           ∀ b, b ∈ bars → bar_count b = 0%Z →
                bar_stars b = 0 ∧ bar_blanks b = 40).
Proof.
  split; [reflexivity|].
  apply (histogram_bars_unguarded 3 [0; 1; 0; 0; 2; 0]%Z 2). reflexivity.
Defined.

(** C8 fails as stated: on a buffer of zeros all 20 buckets are empty,
    [maxAmount] is 0, and the histogram ends in the division by zero
    instead of 20 bars of length 0. *)
Lemma empty_histogram_counterexample :
  max_amount 3 (replicate 6 0%Z) = Ok 0%Z ∧
  ¬ (∃ bars, render 3 (replicate 6 0%Z) = Ok bars ∧
             ∀ b, b ∈ bars → bar_stars b = 0).
Proof.
  split; [reflexivity|]. intros (bars & Hr & _).
  assert (render 3 (replicate 6 0%Z) = Undefined) as Hu by reflexivity.
  rewrite Hu in Hr. discriminate Hr.
Qed.

(** The unguarded division is never reached with a zero divisor from
    [testGenerator]: the buffer of a completed analysis holds at least one
    stride, so some display bucket is not empty. *)
Lemma max_amount_after_run (fuel N : nat) (l : list nat) (r : report) :
  valid N l → 1 ≤ N → analyze fuel N l = Ok r →
  ∃ m, max_amount N (r_strides r) = Ok m ∧ (0 < m)%Z.
Proof.
  intros Hvalid HN Hr.
  destruct (analyze_Ok _ _ _ _ Hr) as [_ Ht].
  destruct (closes_exists N l Hvalid HN) as (k & Hk & Hc).
  rewrite (analyze_closes N l Hvalid HN k fuel Hc) in Hr.
  case_decide; [|done]. injection Hr as <-.
  apply max_amount_pos; [apply length_tally|].
  rewrite Ht. simpl. lia.
Qed.

(** * Further properties of the generator *)

(** Whatever the fresh [traversal_order] holds, it is [0, 1, ..., N-1, 0]
    that gets shuffled. *)
Lemma traversal_order_fresh N junk g :
  traversal_order N junk g = shuffle (seq 0 N ++ [0]) 1 (N - 1) g.
Proof.
  unfold traversal_order. pose proof (order_filled N junk) as Hfill.
  destruct (for_loop 0 N _ _) as [t1| |]; try done.
  rewrite bind_Ok in Hfill |- *. by rewrite Hfill, bind_Ok.
Qed.

(** The generated array, slot by slot: the shuffled order is
    [0 :: mid ++ [N-1; 0]] and each of its slots points to the next one. *)
Lemma getlist_links N junkl junk g :
  2 ≤ N →
  ∃ mid l,
    mid ≡ₚ seq 1 (N - 2) ∧
    traversal_order N junk g = Ok (0 :: mid ++ [N - 1; 0]) ∧
    getlist (permutated_list_generator N junkl) junk g = Ok l ∧
    length l = N ∧
    ∀ j x y, j < N → (0 :: mid ++ [N - 1; 0]) !! j = Some x →
             (0 :: mid ++ [N - 1; 0]) !! S j = Some y → l !! x = Some y.
Proof.
  intros HN. destruct (traversal_order_shape N junk g HN) as (mid & Ht & Hmid).
  pose proof (Permutation_length Hmid) as Hlm. rewrite length_seq in Hlm.
  set (order := 0 :: mid ++ [N - 1]).
  assert (0 :: mid ++ [N - 1; 0] = order ++ [0]) as Hshape.
  { unfold order. simpl. by rewrite <- app_assoc. }
  assert (order ≡ₚ seq 0 N) as Hperm.
  { rewrite (seq_split N) by done. unfold order. by rewrite Hmid. }
  destruct (implement_order N order (new_array N junkl)) as (l & Hl & Hlen & Hlk).
  { unfold order. simpl. rewrite length_app. simpl. lia. }
  { rewrite Hperm. apply NoDup_seq. }
  { intros x Hx. rewrite Hperm in Hx. apply elem_of_seq in Hx. lia. }
  { unfold new_array. by rewrite length_fmap, length_seq. }
  exists mid, l. split_and!; try done.
  - unfold getlist. simpl. rewrite Ht, bind_Ok, Hshape. done.
  - rewrite Hshape. done.
Qed.

Lemma getlist_small N junkl junk g :
  N < 2 → getlist (permutated_list_generator N junkl) junk g = Undefined.
Proof. intros HN. destruct N as [|[|N]]; [done | done | lia]. Qed.

(** Along the chain from slot 0 the generated array follows the shuffled
    order. *)
Lemma links_orbit N (t l : list nat) :
  length t = N + 1 → t !! 0 = Some 0 →
  (∀ j x y, j < N → t !! j = Some x → t !! S j = Some y → l !! x = Some y) →
  ∀ j, j ≤ N → t !! j = Some (orbit l j).
Proof.
  intros Hlen H0 Hlk. induction j as [|j IH]; intros Hj; [done|].
  specialize (IH ltac:(lia)).
  destruct (lookup_lt_is_Some_2 t (S j)) as [y Hy]; [lia|].
  rewrite Hy. simpl. unfold next. by rewrite (Hlk j _ y ltac:(lia) IH Hy).
Qed.


(** X2: the array the shuffle-based generator returns does not depend on
    what the fresh pointer array and the fresh [traversal_order] held:
    every slot is written before it is read or returned. *)
Theorem getlist_ignores_fresh_memory (N : nat) (junkl junkl' junk junk' g : nat → nat) :
  getlist (permutated_list_generator N junkl) junk g =
  getlist (permutated_list_generator N junkl') junk' g.
Proof.
  destruct (decide (2 ≤ N)) as [HN|HN]; [|by rewrite !getlist_small by lia].
  destruct (getlist_links N junkl junk g HN)
    as (mid & l & Hmid & Ht & Hl & Hlen & Hlk).
  destruct (getlist_links N junkl' junk' g HN)
    as (mid' & l' & _ & Ht' & Hl' & Hlen' & Hlk').
  rewrite traversal_order_fresh in Ht, Ht'. rewrite Ht in Ht'.
  injection Ht' as Heq. apply app_inv_tail in Heq. subst mid'.
  rewrite Hl, Hl'. f_equal.
  pose proof (Permutation_length Hmid) as Hlm. rewrite length_seq in Hlm.
  set (t := 0 :: mid ++ [N - 1; 0]) in *.
  assert (length t = N + 1) as Hlt.
  { unfold t. simpl. rewrite length_app. simpl. lia. }
  assert (take N t ≡ₚ seq 0 N) as Hperm.
  { unfold t. rewrite (seq_split N) by done.
    change [N - 1; 0] with ([N - 1] ++ [0]).
    rewrite app_assoc, app_comm_cons, take_app_length'
      by (simpl; rewrite length_app; simpl; lia).
    by rewrite Hmid. }
  apply list_eq_same_length with N; [done | done |].
  intros i x y Hi Hx Hy.
  assert (i ∈ take N t) as [j Hj]%list_elem_of_lookup.
  { rewrite Hperm. apply elem_of_seq. lia. }
  pose proof (lookup_lt_Some _ _ _ Hj) as HjN.
  rewrite length_take in HjN. rewrite lookup_take_lt in Hj by lia.
  destruct (lookup_lt_is_Some_2 t (S j)) as [z Hz]; [lia|].
  rewrite (Hlk j i z) in Hx by (done || lia).
  rewrite (Hlk' j i z) in Hy by (done || lia). congruence.
Qed.



(** * Further properties of the analysis *)

Lemma NoDup_full_trail N l :
  valid N l → 0 < N → NoDup (trail l N) → trail l N ≡ₚ seq 0 N.
Proof.
  intros Hvalid HN Hnd. apply submseteq_length_Permutation.
  - apply NoDup_submseteq; [done|]. intros x Hx. apply elem_of_seq.
    pose proof (trail_lt N l Hvalid HN _ _ Hx). lia.
  - by rewrite length_seq, length_trail.
Qed.

(** A chain that closes on slot 0 after N hops is a cycle through all the
    slots. *)
Lemma closes_hamiltonian N l :
  valid N l → 0 < N → closes_at l N → orbit l N = 0 → hamiltonian N l.
Proof.
  intros Hvalid HN [Hnd _] Ho. split; [by destruct Hvalid|].
  exists (trail l N). split; [by apply NoDup_full_trail|].
  split; [by apply trail_lookup|]. intros i x Hi.
  pose proof (lookup_lt_Some _ _ _ Hi) as HiN. rewrite length_trail in HiN.
  rewrite trail_lookup in Hi by done. injection Hi as <-.
  rewrite (next_lookup N l Hvalid HN) by (by apply orbit_lt). f_equal.
  destruct (decide (S i = N)) as [HSi|HSi].
  - rewrite HSi, Nat.Div0.mod_same, trail_lookup by done. simpl.
    change (next l (orbit l i)) with (orbit l (S i)). by rewrite HSi.
  - rewrite Nat.mod_small, trail_lookup by lia. done.
Qed.

(** In an array without two slots pointing to the same slot the chain
    closes on slot 0. *)
Lemma injective_closes_home N l k :
  valid N l → 0 < N → NoDup l → closes_at l k → orbit l k = 0.
Proof.
  intros Hvalid HN Hinj [Hnd Hin].
  apply elem_of_trail in Hin as (j & Hj & Hjk).
  destruct j as [|j]; [done|]. destruct k as [|k]; [lia|]. exfalso.
  simpl in Hjk.
  pose proof (next_lookup N l Hvalid HN _ (orbit_lt N l Hvalid HN j)) as H1.
  pose proof (next_lookup N l Hvalid HN _ (orbit_lt N l Hvalid HN k)) as H2.
  rewrite Hjk in H1.
  pose proof (NoDup_lookup l _ _ _ Hinj H1 H2) as Heq.
  assert (j = k); [|lia].
  apply (NoDup_lookup (trail l (S k)) j k (orbit l j) Hnd).
  - apply trail_lookup. lia.
  - rewrite Heq. apply trail_lookup. lia.
Qed.

Lemma coverage_bounds k N :
  0 < N → 0 < k ≤ N →
  (0 < coverage (Z.of_nat k) N)%Q ∧ (coverage (Z.of_nat k) N <= 100)%Q.
Proof.
  intros HN Hk. unfold coverage.
  destruct (Z.of_nat N) as [|n|n] eqn:Hn; [lia | | lia].
  unfold Qlt, Qle, Qdiv, Qmult, Qinv. simpl. lia.
Qed.

Lemma coverage_full_iff k N :
  0 < N → (coverage (Z.of_nat k) N == 100)%Q ↔ k = N.
Proof.
  intros HN. unfold coverage.
  destruct (Z.of_nat N) as [|n|n] eqn:Hn; [lia | | lia].
  unfold Qeq, Qdiv, Qmult, Qinv. simpl. lia.
Qed.




Lemma NoDup_sample_cycle : NoDup sample_cycle.
Proof.
  unfold sample_cycle.
  do 3 (apply NoDup_cons_2; [rewrite ?elem_of_cons, ?elem_of_nil; lia|]).
  apply NoDup_nil_2.
Qed.




(** ** The strides add up to the distance covered *)

Lemma weighted_insert d h j c v :
  h !! j = Some c →
  weighted d (<[j := v]> h) = (weighted d h + (d + Z.of_nat j) * (v - c))%Z.
Proof.
  revert d j. induction h as [|x h IH]; intros d [|j] Hj; simplify_eq/=.
  - lia.
  - rewrite (IH _ _ Hj). lia.
Qed.

Lemma weighted_replicate_0 d n : weighted d (replicate n 0%Z) = 0%Z.
Proof.
  revert d. induction n as [|n IH]; intros d; simpl; [done|].
  rewrite IH. lia.
Qed.

Lemma chase_body_stride_sum N st st' :
  chase_body N st = Ok st' →
  (stride_sum N (strides st') - Z.of_nat (p st')
   = stride_sum N (strides st) - Z.of_nat (p st))%Z.
Proof.
  unfold chase_body.
  intros (vis & _ & H)%bind_Ok_inv. apply bind_Ok_inv in H as (tgt & _ & H).
  apply bind_Ok_inv in H as (cnt & Hcnt & H).
  apply bind_Ok_inv in H as (str & Hstr & H). injection H as <-. simpl.
  unfold loadZ in Hcnt. unfold storeZ in Hstr. case_decide; [|done].
  apply load_Ok_inv in Hcnt. apply store_Ok_inv in Hstr as [_ ->].
  unfold stride_sum. rewrite (weighted_insert _ _ _ cnt) by done. lia.
Qed.

Lemma chase_stride_sum fuel N st st' :
  chase fuel N st = Ok st' →
  (stride_sum N (strides st') - Z.of_nat (p st')
   = stride_sum N (strides st) - Z.of_nat (p st))%Z.
Proof.
  revert st. induction fuel as [|fuel IH]; intros st; [done|]. cbn [chase].
  intros (st1 & Hst1 & H)%bind_Ok_inv.
  apply bind_Ok_inv in H as (seen & _ & H).
  apply chase_body_stride_sum in Hst1. destruct seen.
  - injection H as <-. done.
  - apply IH in H. lia.
Qed.

(** X8: after every run of the analysis that completes, the strides held
    by the histogram buffer, each taken as often as it was counted, add up
    to the index of the slot on which the chase ended; they add up to 0
    when the chase ended back on slot 0. *)
Theorem strides_add_up (fuel N : nat) (l : list nat) (r : report) :
  analyze fuel N l = Ok r →
  stride_sum N (r_strides r) = Z.of_nat (r_index r).
Proof.
  unfold analyze. intros (st & Hst & H)%bind_Ok_inv. injection H as <-. simpl.
  apply chase_stride_sum in Hst. simpl in Hst.
  unfold stride_sum in Hst at 2. rewrite weighted_replicate_0 in Hst. lia.
Qed.

Lemma strides_add_up_witness :
  analyze 3 3 [1; 2; 1] = Ok (report_at 3 [1; 2; 1] 3) ∧
  stride_sum 3 (r_strides (report_at 3 [1; 2; 1] 3))
    = Z.of_nat (r_index (report_at 3 [1; 2; 1] 3)).
Proof.
  split; [reflexivity|].
  apply (strides_add_up 3 3 [1; 2; 1] (report_at 3 [1; 2; 1] 3)). reflexivity.
Defined.

(** ** Strides the generated chain never takes *)

Lemma hamiltonian_no_self_loop N l x :
  hamiltonian N l → 2 ≤ N → x < N → next l x ≠ x.
Proof.
  intros (Hlen & order & Hperm & H0 & Hlink) HN Hx.
  pose proof (Permutation_length Hperm) as Hlo. rewrite length_seq in Hlo.
  assert (NoDup order) as Hnd by (rewrite Hperm; apply NoDup_seq).
  assert (x ∈ order) as [i Hi]%list_elem_of_lookup.
  { rewrite Hperm. apply elem_of_seq. lia. }
  pose proof (lookup_lt_Some _ _ _ Hi) as HiN.
  unfold next. rewrite (Hlink _ _ Hi). simpl.
  destruct (lookup_lt_is_Some_2 order (S i `mod` N)) as [z Hz].
  { rewrite Hlo. apply Nat.mod_upper_bound. lia. }
  rewrite Hz. simpl. intros ->.
  pose proof (NoDup_lookup _ _ _ _ Hnd Hz Hi) as Heq.
  destruct (decide (S i = N)) as [HSi|HSi].
  - rewrite HSi, Nat.Div0.mod_same in Heq. lia.
  - rewrite Nat.mod_small in Heq by lia. lia.
Qed.



(** * Further properties of the printed histogram *)

Lemma total_nonneg (h : list Z) : Forall (λ c, 0 ≤ c)%Z h → (0 ≤ total h)%Z.
Proof. induction 1 as [|c h Hc _ IH]; unfold total in *; simpl; lia. Qed.

(** What the first loop leaves when it completes: bucket [j] spans the
    strides from boundary [j] to boundary [j + 1]. *)
Lemma fill_buckets_edges N strides bs m :
  for_loop 0 20 (fill_bucket N strides) ([], 0%Z) = Ok (bs, m) →
  ∀ j bk, bs !! j = Some bk → b_lo bk = edge N j ∧ b_hi bk = edge N (S j).
Proof.
  intros H.
  apply (for_loop_post
           (λ i st, length st.1 = i ∧
                    ∀ j bk, st.1 !! j = Some bk →
                            b_lo bk = edge N j ∧ b_hi bk = edge N (S j))
           (fill_bucket N strides) 0 20 ([], 0%Z) (bs, m)); [done| |done].
  intros i [bs1 m1] s' _ [Hl Hed]. unfold fill_bucket. simpl in *.
  intros (h & _ & [= <-])%bind_Ok_inv. simpl. split.
  - rewrite length_app. simpl. lia.
  - intros j bk Hj. destruct (decide (j < i)) as [Hji|Hji].
    + rewrite lookup_app_l in Hj by lia. by apply Hed.
    + rewrite lookup_app_r in Hj by lia.
      destruct (j - length bs1) as [|n] eqn:Hn; [|done]. simpl in Hj.
      injection Hj as <-. simpl. assert (j = i) as -> by lia.
      by replace (i + 1) with (S i) by lia.
Qed.

(** On a buffer of 2N counters none of which is negative, no bucket gets a
    negative count, [maxAmount] bounds them all and is the count of one of
    them unless it is 0. *)
Lemma fill_buckets_max N strides bs m :
  length strides = 2 * N → Forall (λ c, 0 ≤ c)%Z strides →
  for_loop 0 20 (fill_bucket N strides) ([], 0%Z) = Ok (bs, m) →
  Forall (λ bk, 0 ≤ b_count bk ≤ m)%Z bs ∧
  (m = 0%Z ∨ ∃ bk, bk ∈ bs ∧ b_count bk = m).
Proof.
  intros Hlen Hnn H.
  assert (20 ≤ 20 ∧ (0 ≤ m)%Z ∧ Forall (λ bk, 0 ≤ b_count bk ≤ m)%Z bs ∧
          (m = 0%Z ∨ ∃ bk, bk ∈ bs ∧ b_count bk = m)) as (_ & _ & ? & ?);
    [|done].
  apply (for_loop_post
           (λ i st, i ≤ 20 ∧ (0 ≤ st.2)%Z ∧
                    Forall (λ bk, 0 ≤ b_count bk ≤ st.2)%Z st.1 ∧
                    (st.2 = 0%Z ∨ ∃ bk, bk ∈ st.1 ∧ b_count bk = st.2))
           (fill_bucket N strides) 0 20 ([], 0%Z) (bs, m)); [| |done].
  { simpl. split_and!; [lia | done | constructor | by left]. }
  intros i [bs1 m1] s' Hi (_ & Hm & Hall & Hmax). unfold fill_bucket.
  simpl in *.
  pose proof (edge_range N i ltac:(lia)) as Ha.
  pose proof (edge_range N (S i) ltac:(lia)) as Hb.
  pose proof (edge_mono N i (S i) ltac:(lia)) as Hab.
  replace (i + 1) with (S i) by lia.
  set (lo := Z.to_nat (edge N i + Z.of_nat N)).
  replace (edge N i + Z.of_nat N)%Z with (Z.of_nat lo) by lia.
  rewrite sum_from_total by lia. rewrite bind_Ok. intros [= <-]. simpl.
  set (n := Z.to_nat (edge N (S i) - edge N i)).
  assert (0 ≤ total (take n (drop lo strides)))%Z as Hh.
  { apply total_nonneg. apply Forall_take, Forall_drop. done. }
  split_and!.
  - lia.
  - case_decide; lia.
  - apply Forall_app. split.
    + eapply Forall_impl; [done|]. intros bk Hbk. simpl in Hbk.
      case_decide; lia.
    + constructor; [|constructor]. simpl. case_decide; lia.
  - case_decide.
    + right. eexists. split; [apply elem_of_app; right; by left|]. simpl. lia.
    + destruct Hmax as [->|(bk & Hbk & Hbm)]; [left; lia|].
      right. exists bk. split; [|done]. apply elem_of_app. by left.
Qed.

(** A completed histogram is the list of the lines of the 20 buckets. *)
Lemma render_Ok_inv N strides bars :
  render N strides = Ok bars →
  ∃ bs m, for_loop 0 20 (fill_bucket N strides) ([], 0%Z) = Ok (bs, m) ∧
          length bs = 20 ∧ m ≠ 0%Z ∧ bars = bar_of m <$> bs.
Proof.
  unfold render. intros ([bs m] & Hst & Hr)%bind_Ok_inv. cbn [fst snd] in Hr.
  pose proof (fill_buckets_length _ _ _ _ Hst) as Hl.
  exists bs, m. split; [done|]. split; [done|]. rewrite <- Hl in Hr.
  destruct (decide (m = 0%Z)) as [->|Hm].
  - rewrite draw_bars_zero in Hr by lia. done.
  - rewrite draw_bars in Hr by done. by injection Hr as <-.
Qed.





(** * The test harness *)



(** A run of the shuffle-based generator without histogram. *)
Lemma testGenerator_plain N w fuel :
  2 ≤ N → N ≤ fuel →
  ∃ r, testGenerator w fuel N false = Ok (r, []) ∧ (r_covered r == 100)%Q.
Proof.
  intros HN Hfuel.
  destruct (getlist_hamiltonian N (junk_list w) (junk_order w) (engine w) HN)
    as (l & Hl & Hham & _).
  destruct (analyze_hamiltonian N l fuel Hham Hfuel) as [Hr _].
  exists (report_at N l N). split.
  - unfold testGenerator. rewrite Hl, bind_Ok, Hr, bind_Ok. done.
  - simpl. apply coverage_full. lia.
Qed.


